(** * validator/validation.go: the Validation context, [apply], [Check],
    [Error], the chainable [ValidationResult] and [ErrorMap].

    The Go code works on pointers: [Validation.Errors] is a slice of
    [*ValidationError], and a [ValidationResult] holds a pointer to the very
    record that [apply] appended.  The embedding keeps that sharing: records
    live in a store ([heap]), pointers are store addresses (or nil), and the
    setters [Key] and [Message] write through the pointer. *)

From stdpp Require Import base option list strings gmap pretty.
From Stdlib Require Import ZArith Lia Ascii.

#[local] Set Warnings "-register-all".

Local Open Scope string_scope.
Local Open Scope list_scope.

(** ** Go values of type [interface{}]

    Only the dynamic shapes the engine itself builds or that the formatting
    examples need: the nil interface, [int], [string] and [[]interface{}]
    (the type of a variadic [args ...interface{}] parameter). *)

Inductive value : Type :=
  | VNil
  | VInt (n : Z)
  | VStr (s : string)
  | VSlice (l : list value).

(** [strconv.Itoa]: decimal rendering of an int. *)
Definition Itoa (n : Z) : string := pretty n.

(** ** A fragment of Go's [fmt.Sprintf]

    [fmt] is the Go standard library, not part of this repository.  The
    fragment covers the verbs [%v], [%d], [%s] and the escape [%%], without
    flags, width, precision or argument indexes, on operands of the four
    shapes of [value].  A format outside the fragment yields [None]. *)

Module GoFmt.

Definition join (sep : string) : list string → string :=
  fix go (l : list string) : string :=
    match l with
    | [] => ""
    | [s] => s
    | s :: rest => s +:+ sep +:+ go rest
    end.

(** [reflect.TypeOf(arg).String()] *)
Definition typeString (x : value) : string :=
  match x with
  | VNil => "<nil>"
  | VInt _ => "int"
  | VStr _ => "string"
  | VSlice _ => "[]interface {}"
  end.

Definition verb_char (verb : ascii) : string := String verb "".

(** [pp.badVerb] on a non-nil operand whose [%v] rendering is [shown]. *)
Definition badVerb (verb : ascii) (ty shown : string) : string :=
  "%!" +:+ verb_char verb +:+ "(" +:+ ty +:+ "=" +:+ shown +:+ ")".

(** [pp.fmtInteger]: [%d] and [%v] print decimal, [%s] is a bad verb. *)
Definition fmtInteger (n : Z) (verb : ascii) : string :=
  if decide (verb = "s"%char) then badVerb verb "int" (Itoa n) else Itoa n.

(** [pp.fmtString]: [%s] and [%v] print the string, [%d] is a bad verb. *)
Definition fmtString (s : string) (verb : ascii) : string :=
  if decide (verb = "d"%char) then badVerb verb "string" s else s.

(** [pp.printValue]: a slice prints as its elements between brackets,
    separated by one space, each with the same verb; a nil interface
    element prints as [<nil>]. *)
Fixpoint printValue (verb : ascii) (x : value) : string :=
  match x with
  | VNil => "<nil>"
  | VInt n => fmtInteger n verb
  | VStr s => fmtString s verb
  | VSlice l =>
      "[" +:+ join " " ((fix each (l : list value) : list string :=
                           match l with
                           | [] => []
                           | y :: l' => printValue verb y :: each l'
                           end) l) +:+ "]"
  end.

(** [pp.printArg]: a nil operand prints [<nil>] under [%v] and is a bad
    verb otherwise. *)
Definition printArg (x : value) (verb : ascii) : string :=
  match x with
  | VNil =>
      if decide (verb = "v"%char) then "<nil>"
      else "%!" +:+ verb_char verb +:+ "(<nil>)"
  | _ => printValue verb x
  end.

(** The tail of [doPrintf]: operands left over once the format is
    consumed. *)
Definition extra (a : list value) : string :=
  match a with
  | [] => ""
  | _ =>
      "%!(EXTRA " +:+
      join ", " (map (λ x, match x with
                           | VNil => "<nil>"
                           | _ => typeString x +:+ "=" +:+ printArg x "v"%char
                           end) a) +:+ ")"
  end.

Definition is_verb (c : ascii) : bool :=
  bool_decide (c = "v"%char ∨ c = "d"%char ∨ c = "s"%char).

(** [pp.doPrintf] *)
Fixpoint doPrintf (format : string) (a : list value) : option string :=
  match format with
  | EmptyString => Some (extra a)
  | String c rest =>
      if decide (c = "%"%char) then
        match rest with
        | EmptyString => Some ("%!(NOVERB)" +:+ extra a)
        | String verb rest' =>
            if decide (verb = "%"%char) then
              String "%"%char <$> doPrintf rest' a
            else if is_verb verb then
              match a with
              | [] =>
                  (λ s, "%!" +:+ verb_char verb +:+ "(MISSING)" +:+ s)
                    <$> doPrintf rest' []
              | x :: a' =>
                  (λ s, printArg x verb +:+ s) <$> doPrintf rest' a'
              end
            else None
        end
      else String c <$> doPrintf rest a
  end.

Definition sprintf (format : string) (a : list value) : option string :=
  doPrintf format a.

(** A total [Sprintf] is taken as a parameter by the engine below; this is
    what it means for it to behave as Go's on the fragment. *)
Definition agrees (Sprintf : string → list value → string) : Prop :=
  ∀ format a s, sprintf format a = Some s → Sprintf format a = s.

(** The fragment, completed into a total function (the value outside the
    fragment is arbitrary). *)
Definition total (format : string) (a : list value) : string :=
  default "" (sprintf format a).

End GoFmt.

(** ** Data model *)

(** [type ValidationError struct { Message, Key string }] *)
Record ValidationError : Type := { Message : string; Key : string }.

(** Addresses of [ValidationError] records; a [*ValidationError] is an
    address or nil ([None]). *)
Abbreviation loc := nat (only parsing).
Abbreviation ptr := (option nat) (only parsing).

(** The store of allocated records: address [l] is the [l]-th record ever
    allocated (Go never frees a record that is still referenced). *)
Abbreviation heap := (list ValidationError) (only parsing).

(** [type ValidationResult struct { Error *ValidationError; Ok bool }] *)
Record ValidationResult : Type := { Error : ptr; Ok : bool }.

(** [type Validation struct { Errors []*ValidationError; keep bool }] *)
Record Validation : Type := { Errors : list ptr; keep : bool }.

(** The [Validator] interface.  The rule types that implement it are
    declared outside this file of the repository; the engine only ever
    calls these two methods. *)
Record Validator : Type :=
  { IsSatisfied : value → bool;
    DefaultMessage : string }.

(** One entry of the goroutine's call stack: the function running and the
    line it is currently at (for a caller, the line of its pending call). *)
Record frame : Type := { fn : string; line : Z }.

(** What the engine touches besides the [Validation] it is called on: the
    record store and the log.  [evaluated] is a history variable: the rules
    whose [IsSatisfied] has been invoked so far, oldest first. *)
Record world : Type :=
  { store : heap;
    logged : list string;
    evaluated : list Validator }.

Definition with_store (h : heap) (w : world) : world :=
  {| store := h; logged := logged w; evaluated := evaluated w |}.

(** [&ValidationError{...}]: allocate a record, return its address. *)
Definition new (e : ValidationError) (w : world) : loc * world :=
  (length (store w), with_store (store w ++ [e]) w).

(** [log.Info(msg)] *)
Definition log_Info (msg : string) (w : world) : world :=
  {| store := store w; logged := logged w ++ [msg]; evaluated := evaluated w |}.

(** History update at a call of [chk.IsSatisfied]. *)
Definition probe (chk : Validator) (w : world) : world :=
  {| store := store w; logged := logged w; evaluated := evaluated w ++ [chk] |}.

(** [runtime.Caller(skip)] on a stack given innermost frame first. *)
Definition runtime_Caller (skip : nat) (stack : list frame) : option frame :=
  stack !! skip.

(** Dereference; [None] stands for Go's nil-pointer panic (and for an
    address that was never allocated, which Go cannot produce). *)
Definition deref (h : heap) (p : ptr) : option ValidationError :=
  p ≫= λ l, h !! l.

(** Methods of [*ValidationError]. *)
Module Err.

(** [func (e *ValidationError) String() string] *)
Definition String (e : ptr) (h : heap) : option string :=
  match e with
  | None => Some ""
  | Some l => Message <$> h !! l
  end.

End Err.

(** Methods of [*ValidationResult]. *)
Module Res.

(** [r.Error.Key = key] *)
Definition store_Key (l : loc) (key : string) (h : heap) : heap :=
  alter (λ e, {| Message := Message e; Key := key |}) l h.

(** [r.Error.Message = message] *)
Definition store_Message (l : loc) (message : string) (h : heap) : heap :=
  alter (λ e, {| Message := message; Key := Key e |}) l h.

(** [func (r *ValidationResult) Key(key string) *ValidationResult] *)
Definition Key (r : ValidationResult) (key : string) (h : heap)
  : ValidationResult * heap :=
  match Error r with
  | Some l => (r, store_Key l key h)
  | None => (r, h)
  end.

Section Formatting.
(** Go's [fmt.Sprintf]. *)
Variable Sprintf : string → list value → string.

(** [func (r *ValidationResult) Message(message string, args ...interface{})].
    The call in the source is [fmt.Sprintf(message, args)]: the slice
    [args] is handed over as a single operand. *)
Definition Message (r : ValidationResult) (message : string)
    (args : list value) (h : heap) : ValidationResult * heap :=
  match Error r with
  | Some l =>
      if decide (length args = 0) then (r, store_Message l message h)
      else (r, store_Message l (Sprintf message [VSlice args]) h)
  | None => (r, h)
  end.
End Formatting.

End Res.

(** Methods of [*Validation]. *)
Module Val.

Definition with_Errors (es : list ptr) (v : Validation) : Validation :=
  {| Errors := es; keep := keep v |}.

(** [func (v *Validation) Keep()] *)
Definition Keep (v : Validation) (w : world) : unit * Validation * world :=
  (tt, {| Errors := Errors v; keep := true |}, w).

(** [func (v *Validation) Clear()] *)
Definition Clear (v : Validation) (w : world) : unit * Validation * world :=
  (tt, with_Errors [] v, w).

(** [func (v *Validation) HasErrors() bool] *)
Definition HasErrors (v : Validation) (w : world) : bool * Validation * world :=
  (bool_decide (0 < length (Errors v)), v, w).

(** The loop of [ErrorMap] over [v.Errors], from the map built so far. *)
Fixpoint ErrorMap_range (h : heap) (errors : list ptr) (m : gmap string ptr)
  : option (gmap string ptr) :=
  match errors with
  | [] => Some m
  | e :: rest =>
      match deref h e with
      | None => None
      | Some rec =>
          match m !! Key rec with
          | Some _ => ErrorMap_range h rest m
          | None => ErrorMap_range h rest (<[Key rec := e]> m)
          end
      end
  end.

(** [func (v *Validation) ErrorMap() map[string]*ValidationError];
    [None] is the panic of [e.Key] on a nil element. *)
Definition ErrorMap (v : Validation) (w : world)
  : option (gmap string ptr) * Validation * world :=
  (ErrorMap_range (store w) (Errors v) ∅, v, w).

Definition apply_frame : frame :=
  {| fn := "validator.(*Validation).apply"; line := 131 |}.
Definition Check_frame : frame :=
  {| fn := "validator.(*Validation).Check"; line := 158 |}.

(** [func (v *Validation) apply(chk Validator, obj interface{})].
    [callers] is the stack at the call of [apply], innermost first. *)
Definition apply (chk : Validator) (obj : value) (callers : list frame)
    (v : Validation) (w : world) : ValidationResult * Validation * world :=
  let w := probe chk w in
  if IsSatisfied chk obj then
    ({| Error := None; Ok := true |}, v, w)
  else
    let '(key, w) :=
      match runtime_Caller 2 (apply_frame :: callers) with
      | Some f => (fn f +:+ "#" +:+ Itoa (line f), w)
      | None =>
          ("", log_Info
                 "Failed to get Caller information to look up Validation key" w)
      end in
    let '(err, w) :=
      new {| Message := DefaultMessage chk; Key := key |} w in
    ({| Error := Some err; Ok := false |},
     with_Errors (Errors v ++ [Some err]) v, w).

(** The loop of [Check]; [result] is the local variable of that name,
    a [*ValidationResult] that starts out nil. *)
Fixpoint Check_range (checks : list Validator) (obj : value)
    (stack : list frame) (result : option ValidationResult)
    (v : Validation) (w : world)
  : option ValidationResult * Validation * world :=
  match checks with
  | [] => (result, v, w)
  | check :: rest =>
      let '(r, v, w) := apply check obj stack v w in
      if negb (Ok r) then (Some r, v, w)
      else Check_range rest obj stack (Some r) v w
  end.

(** [func (v *Validation) Check(obj interface{}, checks ...Validator)] *)
Definition Check (obj : value) (checks : list Validator)
    (callers : list frame) (v : Validation) (w : world)
  : option ValidationResult * Validation * world :=
  Check_range checks obj (Check_frame :: callers) None v w.

(** The convenience methods, one per built-in rule.  The rule types
    ([Required], [Min], ... of the package) and [emailPattern] are declared
    outside this file; they are taken as parameters. *)
Section Rules.
Variable Regexp : Type.
Variable Required_rule : Validator.
Variables Min_rule Max_rule : Z → Validator.
Variable Range_rule : Validator → Validator → Validator.
Variables MinSize_rule MaxSize_rule Length_rule : Z → Validator.
Variable Match_rule : Regexp → Validator.
Variable Email_rule : Validator → Validator.
Variable emailPattern : Regexp.

Definition method (name : string) (at_line : Z) : frame :=
  {| fn := "validator.(*Validation)." +:+ name; line := at_line |}.

Definition Required (obj : value) (callers : list frame) :=
  apply Required_rule obj (method "Required" 89 :: callers).

Definition Min (n min : Z) (callers : list frame) :=
  apply (Min_rule min) (VInt n) (method "Min" 93 :: callers).

Definition Max (n max : Z) (callers : list frame) :=
  apply (Max_rule max) (VInt n) (method "Max" 97 :: callers).

Definition Range (n min max : Z) (callers : list frame) :=
  apply (Range_rule (Min_rule min) (Max_rule max)) (VInt n)
    (method "Range" 101 :: callers).

Definition MinSize (obj : value) (min : Z) (callers : list frame) :=
  apply (MinSize_rule min) obj (method "MinSize" 105 :: callers).

Definition MaxSize (obj : value) (max : Z) (callers : list frame) :=
  apply (MaxSize_rule max) obj (method "MaxSize" 109 :: callers).

Definition Length (obj : value) (n : Z) (callers : list frame) :=
  apply (Length_rule n) obj (method "Length" 113 :: callers).

Definition Match (str : string) (regex : Regexp) (callers : list frame) :=
  apply (Match_rule regex) (VStr str) (method "Match" 117 :: callers).

Definition Email (str : string) (callers : list frame) :=
  apply (Email_rule (Match_rule emailPattern)) (VStr str)
    (method "Email" 121 :: callers).
End Rules.

Section Formatting.
Variable Sprintf : string → list value → string.

(** [func (v *Validation) Error(message string, args ...interface{})].
    The source calls [.Message(message, args)]: [args] becomes the one
    element of [Message]'s own variadic slice. *)
Definition Error (message : string) (args : list value)
    (v : Validation) (w : world) : ValidationResult * Validation * world :=
  let '(err, w) := new {| Message := ""; Key := "" |} w in
  let '(r, h) :=
    Res.Message Sprintf {| Error := Some err; Ok := false |}
      message [VSlice args] (store w) in
  (r, v, with_store h w).
End Formatting.

End Val.

(** ** Well-formed states

    Go guarantees that a non-nil pointer refers to an allocated record.
    [allocated] states it for one pointer; [live] adds that the pointer is
    not nil, which holds of every element that [apply] appends. *)

Definition allocated (h : heap) (p : ptr) : Prop :=
  match p with
  | None => True
  | Some l => l < length h
  end.

Definition live (h : heap) (p : ptr) : Prop :=
  ∃ l, p = Some l ∧ l < length h.

(** The empty context and the empty world. *)
Definition fresh_Validation : Validation := {| Errors := []; keep := false |}.
Definition empty_world : world :=
  {| store := []; logged := []; evaluated := [] |}.

(** The view a reader of [v.Errors] gets: each element dereferenced. *)
Definition contents (h : heap) (errors : list ptr) : list (option ValidationError) :=
  deref h <$> errors.

(** ** The words of the specification, for [ErrorMap]

    The earliest element of [errors] whose record carries key [k]. *)
Definition carries (h : heap) (k : string) (p : ptr) : Prop :=
  Key <$> deref h p = Some k.

#[global] Instance carries_dec h k p : Decision (carries h k p).
Proof. unfold carries. apply _. Defined.

Definition earliest_with_key (h : heap) (errors : list ptr) (k : string)
  : option ptr :=
  snd <$> list_find (carries h k) errors.

(** Sample rules and a sample client frame, used to instantiate the
    statements below. *)
Definition rule_failing (msg : string) : Validator :=
  {| IsSatisfied := λ _, false; DefaultMessage := msg |}.
Definition rule_passing (msg : string) : Validator :=
  {| IsSatisfied := λ _, true; DefaultMessage := msg |}.
Definition client_frame : frame :=
  {| fn := "main.(*App).Save"; line := 42 |}.

(** The key the specification prescribes for a failure recorded by [apply]
    when [callers] is the stack at the call of [apply]: element 0 is the
    convenience method, element 1 the code that called it. *)
Definition call_site_key (callers : list frame) : string :=
  match callers !! 1 with
  | Some site => fn site +:+ "#" +:+ Itoa (line site)
  | None => ""
  end.

Definition diagnostic : string :=
  "Failed to get Caller information to look up Validation key".

(** The history after invoking [IsSatisfied] of each rule of [cs] in turn. *)
Definition probes (cs : list Validator) (w : world) : world :=
  {| store := store w; logged := logged w; evaluated := evaluated w ++ cs |}.

Definition all_satisfied (cs : list Validator) (x : value) : Prop :=
  Forall (λ c, IsSatisfied c x = true) cs.

(** ** Postconditions *)

(** What a failed [apply] leaves behind: one pointer appended to [Errors],
    everything before it as it was, one record allocated for it, and a
    result that points to that record. *)
Definition failure_recorded (chk : Validator) (v : Validation) (w : world)
    (out : ValidationResult * Validation * world) : Prop :=
  let '(r, v', w') := out in
  length (Errors v') = S (length (Errors v)) ∧
  take (length (Errors v)) (Errors v') = Errors v ∧
  last (Errors v') = Some (Error r) ∧
  keep v' = keep v ∧
  Ok r = false ∧
  ∃ l e,
    Error r = Some l ∧
    store w' !! l = Some e ∧
    Message e = DefaultMessage chk ∧
    store w !! l = None ∧
    ∀ l', l' ≠ l → store w' !! l' = store w !! l'.

(** What a successful [apply] leaves behind: nothing but the history. *)
Definition nothing_recorded (v : Validation) (w : world)
    (out : ValidationResult * Validation * world) : Prop :=
  let '(r, v', w') := out in
  Ok r = true ∧ Error r = None ∧
  v' = v ∧ Errors v' = Errors v ∧
  store w' = store w ∧ logged w' = logged w.

(** The default key of a failed [apply], and the fallback when the stack is
    too shallow for [runtime.Caller(2)]. *)
Definition keyed_by_call_site (callers : list frame) (v : Validation)
    (w : world) (out : ValidationResult * Validation * world) : Prop :=
  let '(r, v', w') := out in
  Ok r = false ∧
  Errors v' = Errors v ++ [Error r] ∧
  ∃ e, deref (store w') (Error r) = Some e ∧
    match callers with
    | _ :: site :: _ =>
        Key e = fn site +:+ "#" +:+ Itoa (line site) ∧ logged w' = logged w
    | _ =>
        Key e = "" ∧ logged w' = logged w ++ [diagnostic]
    end.

(** After [apply] failed and [.Key(k)] was chained on its result. *)
Definition key_overwritten (k : string)
    (out : ValidationResult * Validation * world) : Prop :=
  let '(r, v', w') := out in
  let '(r', h) := Res.Key r k (store w') in
  r' = r ∧
  last (Errors v') = Some (Error r) ∧
  (∃ e, deref (store w') (Error r) = Some e ∧
        deref h (Error r) = Some {| Message := Message e; Key := k |}) ∧
  length h = length (store w') ∧
  ∀ i p, S i < length (Errors v') → Errors v' !! i = Some p →
         deref h p = deref (store w') p.

Definition ok_result : ValidationResult := {| Error := None; Ok := true |}.

(** [Check] stopped at rule [c], which comes after the rules [pre]. *)
Definition stops_at_first_failure (x : value) (callers : list frame)
    (pre : list Validator) (c : Validator) (v : Validation) (w : world)
    (out : option ValidationResult * Validation * world) : Prop :=
  let '(result, v', w') := out in
  ∃ r,
    result = Some r ∧
    Val.apply c x (Val.Check_frame :: callers) v (probes pre w) = (r, v', w') ∧
    Ok r = false ∧
    evaluated w' = evaluated w ++ pre ++ [c] ∧
    Errors v' = Errors v ++ [Error r] ∧
    length (store w') = S (length (store w)).

(** [Check] ran through all of [pre ++ [c]]. *)
Definition returns_last_success (x : value) (callers : list frame)
    (pre : list Validator) (c : Validator) (v : Validation) (w : world)
    (out : option ValidationResult * Validation * world) : Prop :=
  let '(result, v', w') := out in
  ∃ r,
    result = Some r ∧
    Val.apply c x (Val.Check_frame :: callers) v (probes pre w) = (r, v', w') ∧
    Ok r = true ∧ Error r = None ∧
    evaluated w' = evaluated w ++ pre ++ [c] ∧
    v' = v ∧ store w' = store w.

(** The map [ErrorMap] returns, against the words of the specification. *)
Definition first_inserted_wins (v : Validation) (w : world)
    (out : option (gmap string (option nat)) * Validation * world) : Prop :=
  let '(result, v', w') := out in
  v' = v ∧ w' = w ∧
  ∃ m,
    result = Some m ∧
    (∀ k, m !! k = earliest_with_key (store w) (Errors v) k) ∧
    (∀ a b k, Errors v = [a; b] →
              carries (store w) k a → carries (store w) k b →
              m !! k = Some a).

(** What [Error] does on any input: a record is allocated and filled, the
    result points to it, and [v] is returned as it came. *)
Definition injected_not_recorded (Sprintf : string → list value → string)
    (message : string) (args : list value) (v : Validation) (w : world)
    (out : ValidationResult * Validation * world) : Prop :=
  let '(r, v', w') := out in
  Ok r = false ∧
  Error r = Some (length (store w)) ∧
  store w' = store w ++
    [{| Message := Sprintf message [VSlice [VSlice args]]; Key := "" |}] ∧
  logged w' = logged w ∧
  v' = v ∧
  (Val.HasErrors v' w').1.1 = (Val.HasErrors v w).1.1.

(** ** Sequences of calls on one context

    A client holds one [Validation] and calls its methods, and the setters
    of results it holds, in some order. *)
Inductive call : Type :=
  | CallKeep
  | CallClear
  | CallHasErrors
  | CallErrorMap
  | CallApply (chk : Validator) (obj : value) (callers : list frame)
  | CallCheck (obj : value) (checks : list Validator) (callers : list frame)
  | CallError (message : string) (args : list value)
  | CallKey (r : ValidationResult) (key : string)
  | CallMessage (r : ValidationResult) (message : string) (args : list value).

Definition exec (Sprintf : string → list value → string) (c : call)
    (s : Validation * world) : Validation * world :=
  let '(v, w) := s in
  match c with
  | CallKeep => let '(_, v, w) := Val.Keep v w in (v, w)
  | CallClear => let '(_, v, w) := Val.Clear v w in (v, w)
  | CallHasErrors => let '(_, v, w) := Val.HasErrors v w in (v, w)
  | CallErrorMap => let '(_, v, w) := Val.ErrorMap v w in (v, w)
  | CallApply chk obj callers =>
      let '(_, v, w) := Val.apply chk obj callers v w in (v, w)
  | CallCheck obj checks callers =>
      let '(_, v, w) := Val.Check obj checks callers v w in (v, w)
  | CallError message args =>
      let '(_, v, w) := Val.Error Sprintf message args v w in (v, w)
  | CallKey r key =>
      let '(_, h) := Res.Key r key (store w) in (v, with_store h w)
  | CallMessage r message args =>
      let '(_, h) := Res.Message Sprintf r message args (store w) in
      (v, with_store h w)
  end.

Definition run (Sprintf : string → list value → string) (cs : list call)
    (s : Validation * world) : Validation * world :=
  fold_left (λ s c, exec Sprintf c s) cs s.

Definition is_Keep (c : call) : bool :=
  match c with CallKeep => true | _ => false end.

(** Every element of [Errors] points to a record, and no two elements are
    the same pointer. *)
Definition well_formed (v : Validation) (w : world) : Prop :=
  Forall (live (store w)) (Errors v) ∧ NoDup (Errors v).

(** The key derived from the stack at the call of a public method: its
    first frame is the code that called the method. *)
Definition caller_key (callers : list frame) : string :=
  match callers with
  | site :: _ => fn site +:+ "#" +:+ Itoa (line site)
  | [] => ""
  end.

(** The outcome of a public method that applies the one rule [rule]. *)
Definition method_outcome (rule : Validator) (obj : value)
    (callers : list frame) (v : Validation) (w : world)
    (out : ValidationResult * Validation * world) : Prop :=
  let '(r, v', w') := out in
  if IsSatisfied rule obj then
    r = ok_result ∧ v' = v ∧ store w' = store w ∧ logged w' = logged w
  else
    Ok r = false ∧
    Errors v' = Errors v ++ [Error r] ∧
    deref (store w') (Error r)
      = Some {| Message := DefaultMessage rule; Key := caller_key callers |}.

(** The outcome of [Check] on any list of rules. *)
Definition Check_outcome (x : value) (checks : list Validator)
    (v : Validation) (w : world)
    (out : option ValidationResult * Validation * world) : Prop :=
  let '(result, v', w') := out in
  let passed := forallb (λ c, IsSatisfied c x) checks in
  (result = None ↔ checks = []) ∧
  (∀ r, result = Some r → Ok r = passed) ∧
  length (Errors v') = length (Errors v) + (if passed then 0 else 1) ∧
  take (length (Errors v)) (Errors v') = Errors v ∧
  keep v' = keep v.

(** The record [Check] leaves for the rule it stopped at. *)
Definition Check_records (c : Validator) (callers : list frame)
    (out : option ValidationResult * Validation * world) : Prop :=
  let '(result, v', w') := out in
  ∃ r, result = Some r ∧
    last (Errors v') = Some (Error r) ∧
    deref (store w') (Error r)
      = Some {| Message := DefaultMessage c; Key := caller_key callers |}.

(** After [apply] failed and [.Message(m)] was chained on its result. *)
Definition message_overwritten (Sprintf : string → list value → string)
    (m : string) (out : ValidationResult * Validation * world) : Prop :=
  let '(r, v', w') := out in
  let '(r', h) := Res.Message Sprintf r m [] (store w') in
  r' = r ∧
  last (Errors v') = Some (Error r) ∧
  (∃ e, deref (store w') (Error r) = Some e ∧
        deref h (Error r) = Some {| Message := m; Key := Key e |}) ∧
  length h = length (store w') ∧
  ∀ i p, S i < length (Errors v') → Errors v' !! i = Some p →
         deref h p = deref (store w') p.

(** The map after [apply] failed and [.Key(k)] was chained, against the
    map [before] the two calls. *)
Definition map_after_keyed_failure (k : string)
    (before : option (gmap string (option nat)))
    (out : ValidationResult * Validation * world) : Prop :=
  let '(r, v', w') := out in
  let '(_, h) := Res.Key r k (store w') in
  ∃ m,
    before = Some m ∧
    (Val.ErrorMap v' (with_store h w')).1.1
      = Some (match m !! k with
              | Some _ => m
              | None => <[k := Error r]> m
              end).

(** What the map of [ErrorMap] has to do with [Errors]. *)
Definition map_covers_Errors (v : Validation) (w : world)
    (out : option (gmap string (option nat)) * Validation * world) : Prop :=
  let '(result, _, _) := out in
  ∃ m,
    result = Some m ∧
    (m = ∅ ↔ (Val.HasErrors v w).1.1 = false) ∧
    (∀ k p, m !! k = Some p → p ∈ Errors v ∧ carries (store w) k p) ∧
    (∀ p, p ∈ Errors v → ∃ k, carries (store w) k p ∧ is_Some (m !! k)) ∧
    (size m ≤ length (Errors v))%nat.

(** * Theorems *)

(** ** The formatting fragment on sample inputs *)

Example sprintf_plain :
  GoFmt.sprintf "%s is %d" [VStr "age"; VInt 42] = Some "age is 42".
Proof. vm_compute. reflexivity. Qed.

Example sprintf_slice_operand :
  GoFmt.sprintf "%s is %d" [VSlice [VStr "age"; VInt 42]]
  = Some "[age %!s(int=42)] is %!d(MISSING)".
Proof. vm_compute. reflexivity. Qed.

Example sprintf_extra :
  GoFmt.sprintf "boom" [VSlice [VSlice []]]
  = Some "boom%!(EXTRA []interface {}=[[]])".
Proof. vm_compute. reflexivity. Qed.

(** ** Equations of [apply] *)

Lemma apply_satisfied chk x callers v w :
  IsSatisfied chk x = true →
  Val.apply chk x callers v w = ({| Error := None; Ok := true |}, v, probe chk w).
Proof. intros H. unfold Val.apply. by rewrite H. Qed.

Lemma apply_unsatisfied chk x callers v w :
  IsSatisfied chk x = false →
  Val.apply chk x callers v w =
    ({| Error := Some (length (store w)); Ok := false |},
     Val.with_Errors (Errors v ++ [Some (length (store w))]) v,
     {| store := store w ++
                 [{| Message := DefaultMessage chk; Key := call_site_key callers |}];
        logged := match callers !! 1 with
                  | Some _ => logged w
                  | None => logged w ++ [diagnostic]
                  end;
        evaluated := evaluated w ++ [chk] |}).
Proof.
  intros H. unfold Val.apply, call_site_key, runtime_Caller. rewrite H.
  change ((Val.apply_frame :: callers) !! 2) with (callers !! 1).
  destruct (callers !! 1); reflexivity.
Qed.

(** C1: when the rule is not satisfied, [apply] appends exactly one error
    (the length of [Errors] grows by one and the earlier elements, and the
    records they point to, are unchanged) and returns a result with
    [Ok = false] and a non-nil [Error] whose [Message] is the rule's
    [DefaultMessage]. *)
Theorem apply_failure_appends_one chk x callers v w :
  IsSatisfied chk x = false →
  failure_recorded chk v w (Val.apply chk x callers v w).
Proof.
  intros H. rewrite (apply_unsatisfied _ _ _ _ _ H). cbn.
  repeat split.
  - rewrite length_app. cbn. lia.
  - by rewrite take_app_length.
  - by rewrite last_snoc.
  - exists (length (store w)),
      {| Message := DefaultMessage chk; Key := call_site_key callers |}.
    split_and!; [done | | done | |].
    + by rewrite lookup_app_r, Nat.sub_diag.
    + by apply lookup_ge_None_2.
    + intros l' Hl'. destruct (decide (l' < length (store w))) as [Hlt|Hge].
      * by rewrite lookup_app_l.
      * rewrite (lookup_ge_None_2 (store w)) by lia.
        apply lookup_ge_None_2. rewrite length_app. cbn. lia.
Qed.

Lemma apply_failure_appends_one_witness :
  IsSatisfied (rule_failing "Required") (VStr "") = false ∧
  failure_recorded (rule_failing "Required") fresh_Validation empty_world
    (Val.apply (rule_failing "Required") (VStr "") [] fresh_Validation empty_world).
Proof.
  split; [reflexivity |].
  apply (apply_failure_appends_one (rule_failing "Required") (VStr "") []
           fresh_Validation empty_world).
  reflexivity.
Defined.

(** C2: when the rule is satisfied, [apply] returns [Ok = true] with a nil
    [Error] and leaves [Errors] (and every record) as it was. *)
Theorem apply_success_no_effect chk x callers v w :
  IsSatisfied chk x = true →
  nothing_recorded v w (Val.apply chk x callers v w).
Proof.
  intros H. rewrite (apply_satisfied _ _ _ _ _ H). cbn. by repeat split.
Qed.

Lemma apply_success_no_effect_witness :
  IsSatisfied (rule_passing "Required") (VStr "x") = true ∧
  nothing_recorded fresh_Validation empty_world
    (Val.apply (rule_passing "Required") (VStr "x") [] fresh_Validation empty_world).
Proof.
  split; [reflexivity |].
  apply (apply_success_no_effect (rule_passing "Required") (VStr "x") []
           fresh_Validation empty_world).
  reflexivity.
Defined.

(** C7: the default key of a recorded failure is the name of the function
    that called the convenience method, then "#", then the line of that
    call; when the stack has no such frame a diagnostic is logged, the key
    stays empty, and the failure is recorded all the same. *)
Theorem apply_default_key chk x callers v w :
  IsSatisfied chk x = false →
  keyed_by_call_site callers v w (Val.apply chk x callers v w).
Proof.
  intros H. rewrite (apply_unsatisfied _ _ _ _ _ H). cbn.
  split_and!; [done | done |].
  exists {| Message := DefaultMessage chk; Key := call_site_key callers |}.
  split.
  - by rewrite lookup_app_r, Nat.sub_diag.
  - unfold call_site_key. by destruct callers as [|m [|site rest]].
Qed.

Lemma apply_default_key_witness :
  IsSatisfied (rule_failing "Required") VNil = false ∧
  keyed_by_call_site [Val.method "Required" 89; client_frame]
    fresh_Validation empty_world
    (Val.apply (rule_failing "Required") VNil
       [Val.method "Required" 89; client_frame] fresh_Validation empty_world).
Proof.
  split; [reflexivity |].
  apply (apply_default_key (rule_failing "Required") VNil
           [Val.method "Required" 89; client_frame]
           fresh_Validation empty_world).
  reflexivity.
Defined.

(** The same through a convenience method: the key names the method's
    caller, whatever lies further up the stack. *)
Lemma Required_default_key Required_rule obj site rest v w :
  IsSatisfied Required_rule obj = false →
  ∃ r v' w' e,
    Val.Required Required_rule obj (site :: rest) v w = (r, v', w') ∧
    deref (store w') (Error r) = Some e ∧
    Key e = fn site +:+ "#" +:+ Itoa (line site).
Proof.
  intros H. unfold Val.Required. rewrite (apply_unsatisfied _ _ _ _ _ H).
  eexists _, _, _, _. split; [reflexivity |]. cbn [Error store deref mbind option_bind].
  split; [by rewrite lookup_app_r, Nat.sub_diag |]. reflexivity.
Qed.

Example default_key_sample :
  store (Val.Required (rule_failing "Required") VNil [client_frame]
           fresh_Validation empty_world).2
  = [{| Message := "Required"; Key := "main.(*App).Save#42" |}].
Proof. vm_compute. reflexivity. Qed.

(** ** The chainable setters *)

Lemma Key_on_allocated r k h l e :
  Error r = Some l → h !! l = Some e →
  Res.Key r k h = (r, Res.store_Key l k h) ∧
  Res.store_Key l k h !! l = Some {| Message := Message e; Key := k |} ∧
  length (Res.store_Key l k h) = length h ∧
  ∀ l', l' ≠ l → Res.store_Key l k h !! l' = h !! l'.
Proof.
  intros Hr Hl. unfold Res.Key, Res.store_Key. rewrite Hr. split_and!.
  - done.
  - by rewrite list_lookup_alter_eq, Hl.
  - by rewrite length_alter.
  - intros l' Hne. by rewrite list_lookup_alter_ne.
Qed.

(** C8: [.Key(k)] on the result of a failed [apply] writes through the
    pointer the result shares with the last element of [Errors]: that
    element then has key [k] and its message as before, and every other
    element is as before. *)
Theorem Key_overwrites_appended_error chk x callers v w k :
  IsSatisfied chk x = false →
  Forall (allocated (store w)) (Errors v) →
  key_overwritten k (Val.apply chk x callers v w).
Proof.
  intros H Hall. rewrite (apply_unsatisfied _ _ _ _ _ H).
  unfold key_overwritten.
  set (e0 := {| Message := DefaultMessage chk; Key := call_site_key callers |}).
  set (l := length (store w)).
  assert ((store w ++ [e0]) !! l = Some e0) as Hl
    by (subst l; by rewrite lookup_app_r, Nat.sub_diag).
  destruct (Key_on_allocated {| Error := Some l; Ok := false |} k
              (store w ++ [e0]) l e0 eq_refl Hl) as (Heq & Hnew & Hlen & Hframe).
  cbn [store]. rewrite Heq. cbn [Error Errors Val.with_Errors deref mbind option_bind].
  split_and!.
  - done.
  - by rewrite last_snoc.
  - exists e0. by split.
  - done.
  - intros i p Hi Hp. rewrite length_app in Hi. cbn in Hi.
    rewrite lookup_app_l in Hp by lia.
    rewrite Forall_forall in Hall.
    specialize (Hall p (list_elem_of_lookup_2 _ _ _ Hp)).
    destruct p as [l'|]; [| done]. cbn in Hall |- *.
    apply Hframe. subst l. lia.
Qed.

Lemma Key_overwrites_appended_error_witness :
  IsSatisfied (rule_failing "Minimum is 5") (VInt 3) = false ∧
  Forall (allocated [{| Message := "Required"; Key := "name" |}]) [Some 0] ∧
  key_overwritten "age"
    (Val.apply (rule_failing "Minimum is 5") (VInt 3) []
       {| Errors := [Some 0]; keep := false |}
       {| store := [{| Message := "Required"; Key := "name" |}];
          logged := []; evaluated := [] |}).
Proof.
  assert (Forall (allocated [{| Message := "Required"; Key := "name" |}]) [Some 0])
    as Hall by (repeat constructor).
  split; [reflexivity |]. split; [exact Hall |].
  apply (Key_overwrites_appended_error (rule_failing "Minimum is 5") (VInt 3) []
           {| Errors := [Some 0]; keep := false |}
           {| store := [{| Message := "Required"; Key := "name" |}];
              logged := []; evaluated := [] |} "age").
  - reflexivity.
  - exact Hall.
Defined.

(** C9: on a success result ([Ok = true], nil [Error]) both setters return
    the result as it is and leave the record store, hence every element of
    every [Errors], untouched; no record is created. *)
Theorem setters_noop_on_success Sprintf r k m args h :
  Ok r = true → Error r = None →
  Res.Key r k h = (r, h) ∧ Res.Message Sprintf r m args h = (r, h).
Proof.
  intros _ Hnil. unfold Res.Key, Res.Message. by rewrite Hnil.
Qed.

Lemma setters_noop_on_success_witness :
  Ok {| Error := None; Ok := true |} = true ∧
  Error {| Error := None; Ok := true |} = None ∧
  Res.Key {| Error := None; Ok := true |} "name" []
    = ({| Error := None; Ok := true |}, []) ∧
  Res.Message GoFmt.total {| Error := None; Ok := true |} "%s!" [VStr "x"] []
    = ({| Error := None; Ok := true |}, []).
Proof.
  split; [reflexivity |]. split; [reflexivity |].
  apply (setters_noop_on_success GoFmt.total {| Error := None; Ok := true |}
           "name" "%s!" [VStr "x"] []); reflexivity.
Defined.

(** C10: [String] on a nil receiver returns the empty string without
    touching the store; on a non-nil receiver it returns the [Message] of
    the record. *)
Theorem String_total h :
  Err.String None h = Some "" ∧
  ∀ l e, h !! l = Some e → Err.String (Some l) h = Some (Message e).
Proof.
  split; [reflexivity |]. intros l e Hl. cbn. by rewrite Hl.
Qed.

Lemma String_total_witness :
  [{| Message := "Required"; Key := "name" |}] !! 0
    = Some {| Message := "Required"; Key := "name" |} ∧
  Err.String (Some 0) [{| Message := "Required"; Key := "name" |}]
    = Some "Required".
Proof.
  split; [reflexivity |].
  apply (proj2 (String_total [{| Message := "Required"; Key := "name" |}])
           0 {| Message := "Required"; Key := "name" |}).
  reflexivity.
Defined.

(** ** [Check] *)

Lemma probes_cons c cs w : probes cs (probe c w) = probes (c :: cs) w.
Proof. unfold probes, probe. cbn. by rewrite <- app_assoc. Qed.

Lemma probes_nil w : probes [] w = w.
Proof. destruct w. unfold probes. cbn. by rewrite app_nil_r. Qed.

Lemma probes_snoc cs c w : probe c (probes cs w) = probes (cs ++ [c]) w.
Proof. unfold probes, probe. cbn. by rewrite app_assoc. Qed.

(** The loop runs through a prefix of satisfied rules recording nothing;
    [result] then holds the success of the last of them. *)
Lemma Check_range_satisfied_prefix pre rest x stack result v w :
  all_satisfied pre x →
  Val.Check_range (pre ++ rest) x stack result v w =
  Val.Check_range rest x stack
    (match pre with [] => result | _ => Some ok_result end) v (probes pre w).
Proof.
  intros Hpre. revert result w.
  induction Hpre as [|c pre Hc Hpre IH]; intros result w.
  - by rewrite probes_nil.
  - cbn [app Val.Check_range]. rewrite (apply_satisfied _ _ _ _ _ Hc).
    cbn [Ok negb]. rewrite IH, probes_cons. by destruct pre.
Qed.

(** C3: [Check] applies the rules in order.  With no rule it returns nil.
    At the first rule that is not satisfied it returns that rule's result:
    the rules after it are never evaluated and exactly one error is
    recorded.  When all rules are satisfied it returns the result of the
    last one. *)
Theorem Check_short_circuits x callers v w :
  Val.Check x [] callers v w = (None, v, w) ∧
  (∀ pre c post,
     all_satisfied pre x → IsSatisfied c x = false →
     stops_at_first_failure x callers pre c v w
       (Val.Check x (pre ++ c :: post) callers v w)) ∧
  (∀ pre c,
     all_satisfied (pre ++ [c]) x →
     returns_last_success x callers pre c v w
       (Val.Check x (pre ++ [c]) callers v w)).
Proof.
  split_and!.
  - reflexivity.
  - intros pre c post Hpre Hc. unfold Val.Check, stops_at_first_failure.
    rewrite (Check_range_satisfied_prefix _ _ _ _ _ _ _ Hpre).
    cbn [Val.Check_range]. rewrite !(apply_unsatisfied _ _ _ _ _ Hc).
    cbn [Ok negb]. eexists. split_and!; try reflexivity.
    + cbn. by rewrite <- app_assoc.
    + cbn [store probes]. rewrite length_app. cbn. lia.
  - intros pre c Hall. apply Forall_app in Hall as [Hpre Hc].
    apply Forall_inv in Hc. unfold Val.Check, returns_last_success.
    rewrite (Check_range_satisfied_prefix _ _ _ _ _ _ _ Hpre).
    cbn [Val.Check_range]. rewrite !(apply_satisfied _ _ _ _ _ Hc).
    cbn [Ok negb]. eexists. split_and!; try reflexivity.
    cbn. by rewrite <- app_assoc.
Qed.

Lemma Check_short_circuits_witness :
  all_satisfied [rule_passing "Required"] (VInt 7) ∧
  IsSatisfied (rule_failing "Maximum is 5") (VInt 7) = false ∧
  stops_at_first_failure (VInt 7) [client_frame]
    [rule_passing "Required"] (rule_failing "Maximum is 5")
    fresh_Validation empty_world
    (Val.Check (VInt 7)
       ([rule_passing "Required"] ++
        rule_failing "Maximum is 5" :: [rule_failing "Length is 2"])
       [client_frame] fresh_Validation empty_world) ∧
  all_satisfied ([rule_passing "Required"] ++ [rule_passing "Minimum is 1"])
    (VInt 7) ∧
  returns_last_success (VInt 7) [client_frame]
    [rule_passing "Required"] (rule_passing "Minimum is 1")
    fresh_Validation empty_world
    (Val.Check (VInt 7)
       ([rule_passing "Required"] ++ [rule_passing "Minimum is 1"])
       [client_frame] fresh_Validation empty_world).
Proof.
  assert (all_satisfied [rule_passing "Required"] (VInt 7)) as H1
    by (repeat constructor).
  assert (all_satisfied
            ([rule_passing "Required"] ++ [rule_passing "Minimum is 1"])
            (VInt 7)) as H2 by (repeat constructor).
  destruct (Check_short_circuits (VInt 7) [client_frame]
              fresh_Validation empty_world) as (_ & Hstop & Hlast).
  split; [exact H1 |]. split; [reflexivity |].
  split; [| split; [exact H2 |]].
  - apply (Hstop [rule_passing "Required"] (rule_failing "Maximum is 5")
             [rule_failing "Length is 2"] H1).
    reflexivity.
  - apply (Hlast [rule_passing "Required"] (rule_passing "Minimum is 1") H2).
Defined.

Example Check_sample :
  let '(result, v', w') :=
    Val.Check (VStr "")
      [rule_failing "Required"; rule_failing "Minimum is 5"]
      [client_frame] fresh_Validation empty_world in
  Ok <$> result = Some false ∧
  contents (store w') (Errors v')
    = [Some {| Message := "Required"; Key := "main.(*App).Save#42" |}] ∧
  length (evaluated w') = 1.
Proof. vm_compute. by split_and!. Qed.

(** ** [ErrorMap] *)

Lemma earliest_with_key_cons h e es k :
  earliest_with_key h (e :: es) k =
  if decide (carries h k e) then Some e else earliest_with_key h es k.
Proof.
  unfold earliest_with_key. cbn [list_find].
  destruct (decide (carries h k e)); [done |].
  by destruct (list_find (carries h k) es) as [[i p]|].
Qed.

(** Loop invariant: a key already bound keeps its binding, a key not yet
    bound gets the earliest remaining element that carries it. *)
Lemma ErrorMap_range_spec h es :
  Forall (live h) es →
  ∀ m0, ∃ m,
    Val.ErrorMap_range h es m0 = Some m ∧
    ∀ k, m !! k = match m0 !! k with
                  | Some p => Some p
                  | None => earliest_with_key h es k
                  end.
Proof.
  induction 1 as [|e es (l & -> & Hl) Hes IH]; intros m0.
  - exists m0. split; [done |]. intros k. by destruct (m0 !! k).
  - destruct (lookup_lt_is_Some_2 h l Hl) as [rec Hrec].
    cbn [Val.ErrorMap_range deref mbind option_bind]. rewrite Hrec.
    assert (∀ k, carries h k (Some l) ↔ Key rec = k) as Hcar.
    { intros k. unfold carries. cbn. rewrite Hrec. cbn. naive_solver. }
    destruct (m0 !! Key rec) as [q|] eqn:Hq.
    + destruct (IH m0) as (m & Hm & Hspec). exists m. split; [done |].
      intros k. rewrite Hspec, earliest_with_key_cons.
      destruct (m0 !! k) eqn:Hk; [done |].
      destruct (decide _) as [Hc|]; [| done].
      apply Hcar in Hc. congruence.
    + destruct (IH (<[Key rec := Some l]> m0)) as (m & Hm & Hspec).
      exists m. split; [done |].
      intros k. rewrite Hspec, earliest_with_key_cons.
      destruct (decide (Key rec = k)) as [<-|Hne].
      * rewrite lookup_insert_eq, Hq.
        destruct (decide _) as [|Hn]; [done |]. by destruct Hn; apply Hcar.
      * rewrite lookup_insert_ne by done.
        destruct (m0 !! k); [done |].
        destruct (decide _) as [Hc|]; [| done]. by apply Hcar in Hc.
Qed.

(** C6: on a context whose [Errors] holds pointers to records (as every
    element appended by [apply] is), [ErrorMap] binds each key to the
    earliest element of [Errors] that carries it, binds no other key, and
    changes neither [Errors] nor any record; of two errors A then B with the
    same key it returns A. *)
Theorem ErrorMap_first_wins v w :
  Forall (live (store w)) (Errors v) →
  first_inserted_wins v w (Val.ErrorMap v w).
Proof.
  intros Hlive. unfold Val.ErrorMap, first_inserted_wins.
  destruct (ErrorMap_range_spec _ _ Hlive ∅) as (m & Hm & Hspec).
  split_and!; [done | done |]. exists m.
  assert (∀ k, m !! k = earliest_with_key (store w) (Errors v) k) as Hall.
  { intros k. by rewrite Hspec, lookup_empty. }
  split_and!; [done | done |].
  intros a b k Hab Ha Hb. rewrite Hall, Hab, earliest_with_key_cons.
  by destruct (decide _).
Qed.

Lemma ErrorMap_first_wins_witness :
  Forall (live [{| Message := "A"; Key := "name" |};
                {| Message := "B"; Key := "name" |}]) [Some 0; Some 1] ∧
  first_inserted_wins
    {| Errors := [Some 0; Some 1]; keep := false |}
    {| store := [{| Message := "A"; Key := "name" |};
                 {| Message := "B"; Key := "name" |}];
       logged := []; evaluated := [] |}
    (Val.ErrorMap
       {| Errors := [Some 0; Some 1]; keep := false |}
       {| store := [{| Message := "A"; Key := "name" |};
                    {| Message := "B"; Key := "name" |}];
          logged := []; evaluated := [] |}).
Proof.
  assert (Forall (live [{| Message := "A"; Key := "name" |};
                        {| Message := "B"; Key := "name" |}]) [Some 0; Some 1])
    as Hlive.
  { repeat constructor; eexists; (split; [reflexivity | cbn; lia]). }
  split; [exact Hlive |].
  apply (ErrorMap_first_wins
           {| Errors := [Some 0; Some 1]; keep := false |}
           {| store := [{| Message := "A"; Key := "name" |};
                        {| Message := "B"; Key := "name" |}];
              logged := []; evaluated := [] |}).
  exact Hlive.
Defined.

Example ErrorMap_sample :
  (Val.ErrorMap
     {| Errors := [Some 0; Some 1; Some 2]; keep := false |}
     {| store := [{| Message := "A"; Key := "name" |};
                  {| Message := "C"; Key := "age" |};
                  {| Message := "B"; Key := "name" |}];
        logged := []; evaluated := [] |}).1.1
  = Some (<["age" := Some 1]> (<["name" := Some 0]> ∅)).
Proof. vm_compute. reflexivity. Qed.

(** What the [live] premise rules out: a nil element makes [e.Key] panic. *)
Example ErrorMap_nil_element :
  (Val.ErrorMap {| Errors := [None]; keep := false |} empty_world).1.1 = None.
Proof. reflexivity. Qed.

(** [apply], [Clear] and [Keep] keep every element of [Errors] live. *)
Lemma apply_preserves_live chk x callers v w :
  Forall (live (store w)) (Errors v) →
  let '(_, v', w') := Val.apply chk x callers v w in
  Forall (live (store w')) (Errors v').
Proof.
  intros Hlive. destruct (IsSatisfied chk x) eqn:Hs.
  - by rewrite (apply_satisfied _ _ _ _ _ Hs).
  - rewrite (apply_unsatisfied _ _ _ _ _ Hs). cbn.
    apply Forall_app. split.
    + eapply Forall_impl; [exact Hlive |].
      intros p (l & -> & Hl). exists l. split; [done |].
      rewrite length_app. lia.
    + apply Forall_singleton. eexists. split; [done |].
      rewrite length_app. cbn. lia.
Qed.

Lemma Clear_live v w :
  let '(_, v', w') := Val.Clear v w in
  Errors v' = [] ∧ Forall (live (store w')) (Errors v').
Proof. cbn. by split. Qed.

(** ** [Message] and [Error]: what reaches [fmt.Sprintf] *)

Lemma total_agrees : GoFmt.agrees GoFmt.total.
Proof. intros format a s H. unfold GoFmt.total. by rewrite H. Qed.

(** Without arguments the message is stored verbatim. *)
Lemma Message_verbatim Sprintf r l message h :
  Error r = Some l →
  Res.Message Sprintf r message [] h = (r, Res.store_Message l message h).
Proof. intros Hr. unfold Res.Message. by rewrite Hr. Qed.

(** With arguments [Sprintf] receives one operand: the slice of them all. *)
Lemma Message_with_args Sprintf r l message a args h :
  Error r = Some l →
  Res.Message Sprintf r message (a :: args) h =
  (r, Res.store_Message l (Sprintf message [VSlice (a :: args)]) h).
Proof. intros Hr. unfold Res.Message. by rewrite Hr. Qed.

Lemma store_Message_lookup l message h e :
  h !! l = Some e →
  Res.store_Message l message h !! l = Some {| Message := message; Key := Key e |}.
Proof. intros H. unfold Res.store_Message. by rewrite list_lookup_alter_eq, H. Qed.

(** C5, at the input [r.Message("%d items", 3)]: for any [Sprintf] that
    behaves as Go's, the message stored is "[3] items", the rendering of the
    whole argument slice under [%d], whereas formatting with 3 as the
    positional argument gives "3 items". *)
Theorem Message_formats_the_slice Sprintf r l e h :
  GoFmt.agrees Sprintf →
  Error r = Some l → h !! l = Some e →
  ∃ h',
    Res.Message Sprintf r "%d items" [VInt 3] h = (r, h') ∧
    h' !! l = Some {| Message := "[3] items"; Key := Key e |} ∧
    Sprintf "%d items" [VInt 3] = "3 items".
Proof.
  intros Hfmt Hr Hl. rewrite (Message_with_args _ _ _ _ _ _ _ Hr).
  eexists. split; [reflexivity |].
  rewrite (Hfmt "%d items" [VSlice [VInt 3]] "[3] items") by (vm_compute; done).
  split; [by apply store_Message_lookup |].
  apply Hfmt. vm_compute. done.
Qed.

Lemma Message_formats_the_slice_witness :
  GoFmt.agrees GoFmt.total ∧
  Error {| Error := Some 0; Ok := false |} = Some 0 ∧
  [{| Message := "Required"; Key := "items" |}] !! 0
    = Some {| Message := "Required"; Key := "items" |} ∧
  ∃ h',
    Res.Message GoFmt.total {| Error := Some 0; Ok := false |}
      "%d items" [VInt 3] [{| Message := "Required"; Key := "items" |}]
    = ({| Error := Some 0; Ok := false |}, h') ∧
    h' !! 0 = Some {| Message := "[3] items"; Key := "items" |} ∧
    GoFmt.total "%d items" [VInt 3] = "3 items".
Proof.
  split; [exact total_agrees |]. split; [reflexivity |]. split; [reflexivity |].
  apply (Message_formats_the_slice GoFmt.total {| Error := Some 0; Ok := false |}
           0 {| Message := "Required"; Key := "items" |}
           [{| Message := "Required"; Key := "items" |}]).
  - exact total_agrees.
  - reflexivity.
  - reflexivity.
Defined.

Lemma store_Message_last h e message :
  Res.store_Message (length h) message (h ++ [e])
  = h ++ [{| Message := message; Key := Key e |}].
Proof.
  unfold Res.store_Message. induction h as [|e' h IH]; [done |].
  cbn [length app]. change (alter ?f (S ?i) (?x :: ?t)) with (x :: alter f i t).
  by rewrite IH.
Qed.

(** C4, on the code: [Error] returns [Ok = false] and an error with an
    empty key, but it never appends that error to [Errors]: the context is
    returned unchanged and [HasErrors] answers as before.  On a fresh
    context, [v.Error("boom")] leaves [HasErrors] false and [ErrorMap]
    empty, and the message stored is not "boom". *)
Theorem Error_is_not_recorded :
  (∀ Sprintf message args v w,
     injected_not_recorded Sprintf message args v w
       (Val.Error Sprintf message args v w)) ∧
  (let '(r, v', w') :=
     Val.Error GoFmt.total "boom" [] fresh_Validation empty_world in
   Ok r = false ∧
   contents (store w') [Error r]
     = [Some {| Message := "boom%!(EXTRA []interface {}=[[]])"; Key := "" |}] ∧
   Errors v' = [] ∧
   (Val.HasErrors v' w').1.1 = false ∧
   (Val.ErrorMap v' w').1.1 = Some ∅).
Proof.
  split.
  - intros Sprintf message args v w.
    unfold Val.Error, new, Res.Message, injected_not_recorded.
    cbn [Error Ok store with_store fst snd length decide].
    destruct (decide (1 = 0)) as [|_]; [lia |].
    rewrite store_Message_last. cbn. by split_and!.
  - vm_compute. by split_and!.
Qed.


(** ** Further properties of the engine *)

(** Every public method that applies one rule is [apply] under one more
    frame, so the key names the method's caller. *)
Lemma apply_under_method rule obj m callers v w :
  method_outcome rule obj callers v w (Val.apply rule obj (m :: callers) v w).
Proof.
  unfold method_outcome. destruct (IsSatisfied rule obj) eqn:Hs.
  - rewrite (apply_satisfied _ _ _ _ _ Hs). by split_and!.
  - rewrite (apply_unsatisfied _ _ _ _ _ Hs).
    cbn [Ok Error Errors Val.with_Errors store deref mbind option_bind].
    split_and!; [done | done |].
    rewrite lookup_app_r, Nat.sub_diag by lia.
    unfold call_site_key, caller_key. by destruct callers.
Qed.

(** X1: each of the nine convenience methods returns the success result and
    changes nothing when its rule is satisfied, and otherwise records one
    error whose message is the rule's default message and whose key names
    the code that called the method (the empty key if there is no caller
    frame). *)
Theorem convenience_methods_outcome (Regexp : Type)
    (Required_rule : Validator) (Min_rule Max_rule : Z → Validator)
    (Range_rule : Validator → Validator → Validator)
    (MinSize_rule MaxSize_rule Length_rule : Z → Validator)
    (Match_rule : Regexp → Validator) (Email_rule : Validator → Validator)
    (emailPattern regex : Regexp)
    (obj : value) (str : string) (n lo hi : Z)
    (callers : list frame) (v : Validation) (w : world) :
  method_outcome Required_rule obj callers v w
    (Val.Required Required_rule obj callers v w) ∧
  method_outcome (Min_rule lo) (VInt n) callers v w
    (Val.Min Min_rule n lo callers v w) ∧
  method_outcome (Max_rule hi) (VInt n) callers v w
    (Val.Max Max_rule n hi callers v w) ∧
  method_outcome (Range_rule (Min_rule lo) (Max_rule hi)) (VInt n) callers v w
    (Val.Range Min_rule Max_rule Range_rule n lo hi callers v w) ∧
  method_outcome (MinSize_rule lo) obj callers v w
    (Val.MinSize MinSize_rule obj lo callers v w) ∧
  method_outcome (MaxSize_rule hi) obj callers v w
    (Val.MaxSize MaxSize_rule obj hi callers v w) ∧
  method_outcome (Length_rule n) obj callers v w
    (Val.Length Length_rule obj n callers v w) ∧
  method_outcome (Match_rule regex) (VStr str) callers v w
    (Val.Match Regexp Match_rule str regex callers v w) ∧
  method_outcome (Email_rule (Match_rule emailPattern)) (VStr str) callers v w
    (Val.Email Regexp Match_rule Email_rule emailPattern str callers v w).
Proof. split_and!; apply apply_under_method. Qed.

(** X2: after [apply], [HasErrors] answers true exactly when it did before
    or the rule was not satisfied. *)
Theorem HasErrors_after_apply chk x callers v w :
  let '(_, v', w') := Val.apply chk x callers v w in
  (Val.HasErrors v' w').1.1 = (Val.HasErrors v w).1.1 || negb (IsSatisfied chk x).
Proof.
  destruct (IsSatisfied chk x) eqn:Hs.
  - rewrite (apply_satisfied _ _ _ _ _ Hs). cbn. by rewrite orb_false_r.
  - rewrite (apply_unsatisfied _ _ _ _ _ Hs).
    cbn [Val.HasErrors fst Errors Val.with_Errors negb].
    rewrite orb_true_r. apply bool_decide_eq_true_2.
    rewrite length_app. cbn. lia.
Qed.

(** X3: [Clear] empties the context whatever it held: [HasErrors] is then
    false and [ErrorMap] is the empty map.  The [keep] flag and the records
    themselves stay, so a result obtained earlier still points to its
    record. *)
Theorem Clear_resets v w :
  let '(_, v', w') := Val.Clear v w in
  Errors v' = [] ∧
  (Val.HasErrors v' w').1.1 = false ∧
  (Val.ErrorMap v' w').1.1 = Some ∅ ∧
  keep v' = keep v ∧
  ∀ r : ValidationResult, deref (store w') (Error r) = deref (store w) (Error r).
Proof. cbn. by split_and!. Qed.

(** X4: [result.Error.String()] is safe on the result of every [apply]: it
    is the empty string after a success (nil [Error]) and the rule's
    default message after a failure. *)
Theorem String_of_apply_result chk x callers v w :
  let '(r, _, w') := Val.apply chk x callers v w in
  Err.String (Error r) (store w')
  = Some (if IsSatisfied chk x then "" else DefaultMessage chk).
Proof.
  destruct (IsSatisfied chk x) eqn:Hs.
  - by rewrite (apply_satisfied _ _ _ _ _ Hs).
  - rewrite (apply_unsatisfied _ _ _ _ _ Hs). cbn [Error store Err.String].
    by rewrite lookup_app_r, Nat.sub_diag.
Qed.

(** ** [Check] on any list of rules *)

Lemma first_failure_split checks x :
  all_satisfied checks x ∨
  ∃ pre c post,
    checks = pre ++ c :: post ∧ all_satisfied pre x ∧ IsSatisfied c x = false.
Proof.
  induction checks as [|c checks IH].
  - left. constructor.
  - destruct (IsSatisfied c x) eqn:Hc.
    + destruct IH as [Hall | (pre & c' & post & -> & Hpre & Hc')].
      * left. by constructor.
      * right. exists (c :: pre), c', post. split_and!; [done | | done].
        by constructor.
    + right. exists [], c, checks. split_and!; [done | constructor | done].
Qed.

Lemma forallb_all_satisfied checks x :
  all_satisfied checks x → forallb (λ c, IsSatisfied c x) checks = true.
Proof.
  induction 1 as [|c checks Hc _ IH]; [done |]. cbn. by rewrite Hc, IH.
Qed.

Lemma forallb_first_failure pre c post x :
  IsSatisfied c x = false →
  forallb (λ c, IsSatisfied c x) (pre ++ c :: post) = false.
Proof.
  intros Hc. rewrite forallb_app. cbn. rewrite Hc.
  by rewrite andb_false_r.
Qed.

(** X5: [Check] returns nil exactly on the empty list of rules; otherwise
    the result is [Ok] exactly when every rule is satisfied.  However many
    rules fail, at most one error is appended (one if some rule fails, none
    otherwise), after the errors already there, and [keep] is untouched. *)
Theorem Check_outcome_any_rules x checks callers v w :
  Check_outcome x checks v w (Val.Check x checks callers v w).
Proof.
  unfold Check_outcome, Val.Check.
  destruct (first_failure_split checks x)
    as [Hall | (pre & c & post & -> & Hpre & Hc)].
  - pose proof (Check_range_satisfied_prefix checks [] x
                  (Val.Check_frame :: callers) None v w Hall) as E.
    rewrite app_nil_r in E. rewrite E.
    rewrite (forallb_all_satisfied _ _ Hall). cbn [Val.Check_range].
    split_and!.
    + by destruct checks.
    + intros r Hr. destruct checks; [done |]. by injection Hr as <-.
    + lia.
    + by rewrite firstn_all.
    + done.
  - rewrite (Check_range_satisfied_prefix _ _ _ _ _ _ _ Hpre).
    rewrite (forallb_first_failure _ _ _ _ Hc).
    cbn [Val.Check_range]. rewrite (apply_unsatisfied _ _ _ _ _ Hc).
    cbn [Ok negb Errors Val.with_Errors keep].
    split_and!.
    + split; [done |]. by destruct pre.
    + intros r Hr. by injection Hr as <-.
    + rewrite length_app. cbn. lia.
    + by rewrite take_app_length.
    + done.
Qed.

(** X6: the error [Check] records for the first rule that is not satisfied
    carries that rule's default message and, as key, the code that called
    [Check]: not [Check] itself and not [apply]. *)
Theorem Check_keyed_by_its_caller x pre c post callers v w :
  all_satisfied pre x → IsSatisfied c x = false →
  Check_records c callers (Val.Check x (pre ++ c :: post) callers v w).
Proof.
  intros Hpre Hc. unfold Check_records, Val.Check.
  rewrite (Check_range_satisfied_prefix _ _ _ _ _ _ _ Hpre).
  cbn [Val.Check_range]. rewrite (apply_unsatisfied _ _ _ _ _ Hc).
  cbn [Ok negb]. eexists. split_and!; [reflexivity | |].
  - cbn. by rewrite last_snoc.
  - cbn [Error store probes deref mbind option_bind].
    rewrite lookup_app_r, Nat.sub_diag by lia.
    unfold call_site_key, caller_key. by destruct callers.
Qed.

Lemma Check_keyed_by_its_caller_witness :
  all_satisfied [rule_passing "Required"] (VInt 7) ∧
  IsSatisfied (rule_failing "Maximum is 5") (VInt 7) = false ∧
  Check_records (rule_failing "Maximum is 5") [client_frame]
    (Val.Check (VInt 7)
       ([rule_passing "Required"] ++
        rule_failing "Maximum is 5" :: [rule_failing "Length is 2"])
       [client_frame] fresh_Validation empty_world).
Proof.
  assert (all_satisfied [rule_passing "Required"] (VInt 7)) as H1
    by (repeat constructor).
  split; [exact H1 |]. split; [reflexivity |].
  apply (Check_keyed_by_its_caller (VInt 7) [rule_passing "Required"]
           (rule_failing "Maximum is 5") [rule_failing "Length is 2"]
           [client_frame] fresh_Validation empty_world H1).
  reflexivity.
Defined.

(** ** Chained setters *)

Lemma Message_on_allocated Sprintf r m h l e :
  Error r = Some l → h !! l = Some e →
  Res.Message Sprintf r m [] h = (r, Res.store_Message l m h) ∧
  Res.store_Message l m h !! l = Some {| Message := m; Key := Key e |} ∧
  length (Res.store_Message l m h) = length h ∧
  ∀ l', l' ≠ l → Res.store_Message l m h !! l' = h !! l'.
Proof.
  intros Hr Hl. split_and!.
  - by apply Message_verbatim.
  - by apply store_Message_lookup.
  - unfold Res.store_Message. by rewrite length_alter.
  - intros l' Hne. unfold Res.store_Message. by rewrite list_lookup_alter_ne.
Qed.

(** X7: [.Message(m)] without arguments on the result of a failed [apply]
    replaces the message of the error just appended by [m] as it is (no
    formatting, whatever [m] contains), keeps its key, and leaves every
    other element of [Errors] as it was. *)
Theorem Message_overwrites_appended_error Sprintf chk x callers v w m :
  IsSatisfied chk x = false →
  Forall (allocated (store w)) (Errors v) →
  message_overwritten Sprintf m (Val.apply chk x callers v w).
Proof.
  intros H Hall. rewrite (apply_unsatisfied _ _ _ _ _ H).
  unfold message_overwritten.
  set (e0 := {| Message := DefaultMessage chk; Key := call_site_key callers |}).
  set (l := length (store w)).
  assert ((store w ++ [e0]) !! l = Some e0) as Hl
    by (subst l; by rewrite lookup_app_r, Nat.sub_diag).
  destruct (Message_on_allocated Sprintf {| Error := Some l; Ok := false |} m
              (store w ++ [e0]) l e0 eq_refl Hl) as (Heq & Hnew & Hlen & Hframe).
  cbn [store]. rewrite Heq.
  cbn [Error Errors Val.with_Errors deref mbind option_bind].
  split_and!.
  - done.
  - by rewrite last_snoc.
  - exists e0. by split.
  - done.
  - intros i p Hi Hp. rewrite length_app in Hi. cbn in Hi.
    rewrite lookup_app_l in Hp by lia.
    rewrite Forall_forall in Hall.
    specialize (Hall p (list_elem_of_lookup_2 _ _ _ Hp)).
    destruct p as [l'|]; [| done]. cbn in Hall |- *.
    apply Hframe. subst l. lia.
Qed.

Lemma Message_overwrites_appended_error_witness :
  IsSatisfied (rule_failing "Minimum is 5") (VInt 3) = false ∧
  Forall (allocated [{| Message := "Required"; Key := "name" |}]) [Some 0] ∧
  message_overwritten GoFmt.total "100% wrong"
    (Val.apply (rule_failing "Minimum is 5") (VInt 3) []
       {| Errors := [Some 0]; keep := false |}
       {| store := [{| Message := "Required"; Key := "name" |}];
          logged := []; evaluated := [] |}).
Proof.
  assert (Forall (allocated [{| Message := "Required"; Key := "name" |}]) [Some 0])
    as Hall by (repeat constructor).
  split; [reflexivity |]. split; [exact Hall |].
  apply (Message_overwrites_appended_error GoFmt.total
           (rule_failing "Minimum is 5") (VInt 3) []
           {| Errors := [Some 0]; keep := false |}
           {| store := [{| Message := "Required"; Key := "name" |}];
              logged := []; evaluated := [] |} "100% wrong").
  - reflexivity.
  - exact Hall.
Defined.

(** X8: on one result the two setters commute ([.Key(k).Message(m, ...)]
    and [.Message(m, ...).Key(k)] leave the same records), and of two calls
    of the same setter the later one wins. *)
Theorem setters_commute_last_wins Sprintf r k k' m m' args args' h :
  (Res.Key r k (Res.Message Sprintf r m args h).2).2
    = (Res.Message Sprintf r m args (Res.Key r k h).2).2 ∧
  (Res.Key r k' (Res.Key r k h).2).2 = (Res.Key r k' h).2 ∧
  (Res.Message Sprintf r m' args' (Res.Message Sprintf r m args h).2).2
    = (Res.Message Sprintf r m' args' h).2.
Proof.
  unfold Res.Key, Res.Message, Res.store_Key, Res.store_Message.
  destruct (Error r) as [l|]; [| done].
  destruct (decide (length args = 0)), (decide (length args' = 0));
    cbn [snd]; rewrite !list_alter_alter_eq;
    (split_and!; by apply list_alter_ext).
Qed.

(** ** [ErrorMap] and the other methods *)

Lemma carries_live h k l rec :
  h !! l = Some rec → carries h k (Some l) ↔ Key rec = k.
Proof. intros H. unfold carries. cbn. rewrite H. cbn. naive_solver. Qed.

Lemma earliest_with_key_nil h k : earliest_with_key h [] k = None.
Proof. reflexivity. Qed.

Lemma earliest_with_key_snoc h es p k :
  earliest_with_key h (es ++ [p]) k =
  match earliest_with_key h es k with
  | Some q => Some q
  | None => if decide (carries h k p) then Some p else None
  end.
Proof.
  induction es as [|e es IH].
  - cbn [app]. rewrite earliest_with_key_cons, earliest_with_key_nil. done.
  - cbn [app]. rewrite !earliest_with_key_cons, IH.
    by destruct (decide (carries h k e)).
Qed.

(** Allocating one more record does not change what live pointers carry. *)
Lemma earliest_with_key_grow h e es k :
  Forall (live h) es →
  earliest_with_key (h ++ [e]) es k = earliest_with_key h es k.
Proof.
  induction 1 as [|p es (l & -> & Hl) _ IH]; [done |].
  rewrite !earliest_with_key_cons, IH.
  destruct (lookup_lt_is_Some_2 h l Hl) as [rec Hrec].
  assert ((h ++ [e]) !! l = Some rec) as Hrec' by (by rewrite lookup_app_l).
  destruct (decide (carries (h ++ [e]) k (Some l))) as [Hc|Hc],
           (decide (carries h k (Some l))) as [Hd|Hd]; try done.
  - apply (carries_live _ _ _ _ Hrec') in Hc.
    by destruct Hd; apply (carries_live _ _ _ _ Hrec).
  - apply (carries_live _ _ _ _ Hrec) in Hd.
    by destruct Hc; apply (carries_live _ _ _ _ Hrec').
Qed.

Lemma live_grow (h h' : list ValidationError) p :
  (length h ≤ length h')%nat → live h p → live h' p.
Proof. intros Hle (l & -> & Hl). exists l. split; [done | lia]. Qed.

Lemma store_Key_last h e k :
  Res.store_Key (length h) k (h ++ [e])
  = h ++ [{| Message := Message e; Key := k |}].
Proof.
  unfold Res.store_Key. induction h as [|e' h IH]; [done |].
  cbn [length app]. change (alter ?f (S ?i) (?x :: ?t)) with (x :: alter f i t).
  by rewrite IH.
Qed.

(** X9: recording a failure with [apply] and giving it the key [k] with
    [.Key(k)] changes the map of [ErrorMap] in one place at most: if [k] was
    already bound the map is as before (the earlier error keeps the key),
    otherwise [k] is now bound to the new error. *)
Theorem ErrorMap_after_keyed_failure chk x callers v w k :
  IsSatisfied chk x = false →
  Forall (live (store w)) (Errors v) →
  map_after_keyed_failure k (Val.ErrorMap v w).1.1
    (Val.apply chk x callers v w).
Proof.
  intros H Hlive. rewrite (apply_unsatisfied _ _ _ _ _ H).
  unfold map_after_keyed_failure, Res.Key, Val.ErrorMap.
  cbn [Error store with_store Errors Val.with_Errors fst].
  rewrite store_Key_last. cbn [Message].
  set (e1 := {| Message := DefaultMessage chk; Key := k |}).
  set (l := length (store w)).
  destruct (ErrorMap_range_spec _ _ Hlive ∅) as (m & Hm & Hspec).
  assert (Forall (live (store w ++ [e1])) (Errors v ++ [Some l])) as Hlive'.
  { apply Forall_app. split.
    - eapply Forall_impl; [exact Hlive |]. intros p.
      apply live_grow. rewrite length_app. lia.
    - apply Forall_singleton. exists l. split; [done |].
      rewrite length_app. subst l. cbn. lia. }
  destruct (ErrorMap_range_spec _ _ Hlive' ∅) as (m' & Hm' & Hspec').
  exists m. split; [done |]. rewrite Hm'. f_equal.
  assert ((store w ++ [e1]) !! l = Some e1) as Hl
    by (subst l; by rewrite lookup_app_r, Nat.sub_diag).
  apply map_eq. intros k0.
  rewrite Hspec', lookup_empty, earliest_with_key_snoc.
  rewrite (earliest_with_key_grow _ _ _ _ Hlive).
  pose proof (Hspec k0) as Hk0. rewrite lookup_empty in Hk0. rewrite <- Hk0.
  pose proof (Hspec k) as Hk. rewrite lookup_empty in Hk.
  destruct (decide (k = k0)) as [<-|Hne].
  - destruct (m !! k) as [q|] eqn:Hq; [by rewrite Hq |].
    rewrite lookup_insert_eq.
    destruct (decide _) as [|Hn]; [done |].
    by destruct Hn; apply (carries_live _ _ _ _ Hl).
  - assert (¬ carries (store w ++ [e1]) k0 (Some l)) as Hn.
    { intros Hc. by apply (carries_live _ _ _ _ Hl) in Hc. }
    destruct (decide _); [done |].
    destruct (m !! k) as [q|]; [by destruct (m !! k0) |].
    rewrite lookup_insert_ne by done. by destruct (m !! k0).
Qed.

Lemma ErrorMap_after_keyed_failure_witness :
  IsSatisfied (rule_failing "Minimum is 5") (VInt 3) = false ∧
  Forall (live [{| Message := "Required"; Key := "name" |}]) [Some 0] ∧
  map_after_keyed_failure "age"
    (Val.ErrorMap
       {| Errors := [Some 0]; keep := false |}
       {| store := [{| Message := "Required"; Key := "name" |}];
          logged := []; evaluated := [] |}).1.1
    (Val.apply (rule_failing "Minimum is 5") (VInt 3) []
       {| Errors := [Some 0]; keep := false |}
       {| store := [{| Message := "Required"; Key := "name" |}];
          logged := []; evaluated := [] |}).
Proof.
  assert (Forall (live [{| Message := "Required"; Key := "name" |}]) [Some 0])
    as Hlive.
  { repeat constructor; eexists; (split; [reflexivity | cbn; lia]). }
  split; [reflexivity |]. split; [exact Hlive |].
  apply (ErrorMap_after_keyed_failure (rule_failing "Minimum is 5") (VInt 3) []
           {| Errors := [Some 0]; keep := false |}
           {| store := [{| Message := "Required"; Key := "name" |}];
              logged := []; evaluated := [] |} "age").
  - reflexivity.
  - exact Hlive.
Defined.

Lemma ErrorMap_range_size h es :
  ∀ m0 m, Val.ErrorMap_range h es m0 = Some m →
          (size m ≤ size m0 + length es)%nat.
Proof.
  induction es as [|e es IH]; intros m0 m Hm.
  - cbn in Hm. injection Hm as <-. lia.
  - cbn [Val.ErrorMap_range] in Hm.
    destruct (deref h e) as [rec|]; [| done].
    destruct (m0 !! Key rec) eqn:Hk.
    + apply IH in Hm. cbn [length]. lia.
    + apply IH in Hm. rewrite map_size_insert_None in Hm by done.
      cbn [length]. lia.
Qed.

Lemma earliest_with_key_Some h es k p :
  earliest_with_key h es k = Some p → p ∈ es ∧ carries h k p.
Proof.
  unfold earliest_with_key. intros H.
  destruct (list_find (carries h k) es) as [[i q]|] eqn:Hf; [| done].
  injection H as <-. apply list_find_Some in Hf as (Hi & Hc & _).
  split; [by eapply list_elem_of_lookup_2 | done].
Qed.

Lemma earliest_with_key_is_Some h es k p :
  p ∈ es → carries h k p → is_Some (earliest_with_key h es k).
Proof.
  intros Hp Hc. unfold earliest_with_key.
  destruct (list_find (carries h k) es) as [[i q]|] eqn:Hf; [by eexists |].
  rewrite list_find_None, Forall_forall in Hf. by destruct (Hf p Hp).
Qed.

(** X10: on a context whose elements point to records, the map of
    [ErrorMap] is empty exactly when [HasErrors] is false; every binding is
    an element of [Errors] that carries the bound key; the key of every
    element of [Errors] is bound; and the map has at most as many bindings
    as [Errors] has elements. *)
Theorem ErrorMap_covers_Errors v w :
  Forall (live (store w)) (Errors v) →
  map_covers_Errors v w (Val.ErrorMap v w).
Proof.
  intros Hlive. unfold map_covers_Errors, Val.ErrorMap.
  destruct (ErrorMap_range_spec _ _ Hlive ∅) as (m & Hm & Hspec).
  assert (∀ k, m !! k = earliest_with_key (store w) (Errors v) k) as Hall.
  { intros k. by rewrite Hspec, lookup_empty. }
  assert (∀ p, p ∈ Errors v →
               ∃ k, carries (store w) k p ∧ is_Some (m !! k)) as Hcov.
  { intros p Hp. rewrite Forall_forall in Hlive.
    destruct (Hlive p Hp) as (l & -> & Hl).
    destruct (lookup_lt_is_Some_2 _ l Hl) as [rec Hrec].
    assert (carries (store w) (Key rec) (Some l)) as Hc
      by (by apply (carries_live _ _ _ _ Hrec)).
    exists (Key rec). split; [done |]. rewrite Hall.
    by eapply earliest_with_key_is_Some. }
  exists m. split_and!.
  - done.
  - cbn [Val.HasErrors fst]. split.
    + intros ->. apply bool_decide_eq_false_2.
      destruct (Errors v) as [|p es] eqn:He; [cbn; lia |].
      destruct (Hcov p) as (k & _ & [q Hq]); [rewrite ?He; by left |].
      by rewrite lookup_empty in Hq.
    + intros Hno. apply bool_decide_eq_false_1 in Hno.
      destruct (Errors v) as [|p es] eqn:He; [| cbn in Hno; lia].
      apply map_empty. intros k. by rewrite Hall, ?He.
  - intros k p Hk. rewrite Hall in Hk. by apply earliest_with_key_Some.
  - done.
  - apply ErrorMap_range_size in Hm. rewrite map_size_empty in Hm. lia.
Qed.

Lemma ErrorMap_covers_Errors_witness :
  Forall (live [{| Message := "A"; Key := "name" |};
                {| Message := "B"; Key := "name" |}]) [Some 0; Some 1] ∧
  map_covers_Errors
    {| Errors := [Some 0; Some 1]; keep := false |}
    {| store := [{| Message := "A"; Key := "name" |};
                 {| Message := "B"; Key := "name" |}];
       logged := []; evaluated := [] |}
    (Val.ErrorMap
       {| Errors := [Some 0; Some 1]; keep := false |}
       {| store := [{| Message := "A"; Key := "name" |};
                    {| Message := "B"; Key := "name" |}];
          logged := []; evaluated := [] |}).
Proof.
  assert (Forall (live [{| Message := "A"; Key := "name" |};
                        {| Message := "B"; Key := "name" |}]) [Some 0; Some 1])
    as Hlive.
  { repeat constructor; eexists; (split; [reflexivity | cbn; lia]). }
  split; [exact Hlive |].
  apply (ErrorMap_covers_Errors
           {| Errors := [Some 0; Some 1]; keep := false |}
           {| store := [{| Message := "A"; Key := "name" |};
                        {| Message := "B"; Key := "name" |}];
              logged := []; evaluated := [] |}).
  exact Hlive.
Defined.

(** ** Invariants of a context under any sequence of calls *)

(** What [apply] preserves, [Check] preserves. *)
Lemma Check_range_invariant (P : Validation → world → Prop) x stack :
  (∀ c v w, P v w → let '(_, v', w') := Val.apply c x stack v w in P v' w') →
  ∀ checks result v w, P v w →
    let '(_, v', w') := Val.Check_range checks x stack result v w in P v' w'.
Proof.
  intros Happly. induction checks as [|c checks IH]; intros result v w HP.
  - done.
  - cbn [Val.Check_range]. specialize (Happly c v w HP).
    destruct (Val.apply c x stack v w) as [[r v1] w1].
    destruct (negb (Ok r)); [done |]. by apply IH.
Qed.

Lemma apply_well_formed chk x callers v w :
  well_formed v w →
  let '(_, v', w') := Val.apply chk x callers v w in well_formed v' w'.
Proof.
  intros [Hlive Hnd]. destruct (IsSatisfied chk x) eqn:Hs.
  - by rewrite (apply_satisfied _ _ _ _ _ Hs).
  - rewrite (apply_unsatisfied _ _ _ _ _ Hs). split; cbn.
    + apply Forall_app. split.
      * eapply Forall_impl; [exact Hlive |]. intros p.
        apply live_grow. rewrite length_app. lia.
      * apply Forall_singleton. eexists. split; [done |].
        rewrite length_app. cbn. lia.
    + apply NoDup_app. split_and!; [done | | apply NoDup_singleton].
      intros p Hp Hin. apply list_elem_of_singleton in Hin as ->.
      rewrite Forall_forall in Hlive.
      destruct (Hlive _ Hp) as (l & [= <-] & Hl). lia.
Qed.

Lemma well_formed_grow v w h :
  (length (store w) ≤ length h)%nat →
  well_formed v w → well_formed v (with_store h w).
Proof.
  intros Hle [Hlive Hnd]. split; [| done]. cbn.
  eapply Forall_impl; [exact Hlive |]. intros p. by apply live_grow.
Qed.

Lemma exec_well_formed Sprintf c v w :
  well_formed v w →
  let '(v', w') := exec Sprintf c (v, w) in well_formed v' w'.
Proof.
  intros Hwf. destruct c; cbn [exec Val.Keep Val.Clear Val.HasErrors Val.ErrorMap].
  - exact Hwf.
  - split; [constructor | apply NoDup_nil_2].
  - exact Hwf.
  - exact Hwf.
  - pose proof (apply_well_formed chk obj callers v w Hwf) as H.
    by destruct (Val.apply chk obj callers v w) as [[r v'] w'].
  - unfold Val.Check.
    pose proof (Check_range_invariant well_formed obj (Val.Check_frame :: callers)
                  (λ c v w, apply_well_formed c obj _ v w) checks None v w Hwf) as H.
    by destruct (Val.Check_range _ _ _ _ _ _) as [[r v'] w'].
  - unfold Val.Error, new, Res.Message.
    cbn [Error store with_store].
    destruct (decide _); cbv beta iota zeta;
      (apply well_formed_grow;
       [cbn [store with_store]; unfold Res.store_Message;
        by rewrite length_alter |];
       apply well_formed_grow; [rewrite length_app; lia | done]).
  - unfold Res.Key. destruct (Error r) as [l|].
    + apply well_formed_grow; [| done]. unfold Res.store_Key.
      by rewrite length_alter.
    + by apply well_formed_grow.
  - unfold Res.Message. destruct (Error r) as [l|].
    + destruct (decide _);
        (apply well_formed_grow; [| done]; unfold Res.store_Message;
         by rewrite length_alter).
    + by apply well_formed_grow.
Qed.

(** X11: whatever the client calls, in whatever order, and whatever results
    it passes to the setters, every element of [Errors] stays a non-nil
    pointer to a record, no pointer occurs twice in [Errors], and [ErrorMap]
    therefore returns a map instead of panicking. *)
Theorem calls_keep_context_well_formed Sprintf cs v w :
  well_formed v w →
  let '(v', w') := run Sprintf cs (v, w) in
  well_formed v' w' ∧ is_Some (Val.ErrorMap v' w').1.1.
Proof.
  revert v w. unfold run. induction cs as [|c cs IH]; intros v w Hwf.
  - cbn. split; [done |].
    destruct (ErrorMap_range_spec _ _ (proj1 Hwf) ∅) as (m & Hm & _).
    by exists m.
  - cbn [fold_left].
    pose proof (exec_well_formed Sprintf c v w Hwf) as H.
    destruct (exec Sprintf c (v, w)) as [v1 w1]. by apply IH.
Qed.

Lemma calls_keep_context_well_formed_witness :
  well_formed fresh_Validation empty_world ∧
  let '(v', w') :=
    run GoFmt.total
      [CallApply (rule_failing "Required") VNil [client_frame];
       CallKey {| Error := Some 0; Ok := false |} "name";
       CallCheck (VInt 7) [rule_passing "Minimum is 1"; rule_failing "Maximum is 5"]
         [client_frame];
       CallError "boom" [];
       CallKeep]
      (fresh_Validation, empty_world) in
  well_formed v' w' ∧ is_Some (Val.ErrorMap v' w').1.1.
Proof.
  assert (well_formed fresh_Validation empty_world) as Hwf
    by (split; [constructor | apply NoDup_nil_2]).
  split; [exact Hwf |].
  apply (calls_keep_context_well_formed GoFmt.total
           [CallApply (rule_failing "Required") VNil [client_frame];
            CallKey {| Error := Some 0; Ok := false |} "name";
            CallCheck (VInt 7)
              [rule_passing "Minimum is 1"; rule_failing "Maximum is 5"]
              [client_frame];
            CallError "boom" [];
            CallKeep]
           fresh_Validation empty_world).
  exact Hwf.
Defined.

Lemma exec_keep Sprintf c v w :
  keep (exec Sprintf c (v, w)).1 = keep v || is_Keep c.
Proof.
  destruct c; cbn [exec Val.Keep Val.Clear Val.HasErrors Val.ErrorMap is_Keep fst];
    rewrite ?orb_false_r, ?orb_true_r.
  - done.
  - done.
  - done.
  - done.
  - destruct (IsSatisfied chk obj) eqn:Hs.
    + by rewrite (apply_satisfied _ _ _ _ _ Hs).
    + by rewrite (apply_unsatisfied _ _ _ _ _ Hs).
  - unfold Val.Check.
    pose proof (Check_range_invariant (λ v' _, keep v' = keep v) obj
                  (Val.Check_frame :: callers)) as H.
    specialize (H (λ c v0 w0 Hk,
      ltac:(destruct (IsSatisfied c obj) eqn:Hs;
            [rewrite (apply_satisfied _ _ _ _ _ Hs)
            |rewrite (apply_unsatisfied _ _ _ _ _ Hs)]; exact Hk))
      checks None v w eq_refl).
    by destruct (Val.Check_range _ _ _ _ _ _) as [[r v'] w'].
  - unfold Val.Error, new, Res.Message. cbn [Error]. by destruct (decide _).
  - by destruct (Res.Key r key (store w)).
  - by destruct (Res.Message Sprintf r message args (store w)).
Qed.

(** X12: the [keep] flag is sticky: after any sequence of calls it is true
    exactly when it was true before or [Keep] was called; in particular
    [Clear] does not reset it and no other method sets it. *)
Theorem keep_is_sticky Sprintf cs v w :
  keep (run Sprintf cs (v, w)).1 = keep v || existsb is_Keep cs.
Proof.
  revert v w. unfold run. induction cs as [|c cs IH]; intros v w.
  - cbn. by rewrite orb_false_r.
  - cbn [fold_left existsb].
    pose proof (exec_keep Sprintf c v w) as H.
    destruct (exec Sprintf c (v, w)) as [v1 w1]. cbn [fst] in H.
    by rewrite IH, H, orb_assoc.
Qed.
